(** * McVineGPU kernels: generic array fill and candidate reduction

  Shallow embedding of the kernels declared in
  [src/include/UtilKernels.hpp] and [src/include/Kernels.hpp].

  - [initArray] is the one kernel whose body is part of the header; it is
    embedded statement by statement.  C [int] arithmetic is written as
    32-bit two's-complement wrap-around, and the executions in which
    [i += stride] overflows, where C++ leaves the behaviour undefined, are
    singled out by [InitArray.overflows].
  - [simplifyTimePointPairs] and [forceIntersectionOrder] are only declared
    in the header; their bodies are modelled from the design document. *)

From Stdlib Require Import ZArith List Lia Bool FinFun Permutation SpecFloat.
Import ListNotations.

Local Open Scope Z_scope.

(** ** 32-bit machine integers *)

Module Int32.

Definition modulus : Z := 4294967296.
Definition half_modulus : Z := 2147483648.
Definition max_signed : Z := 2147483647.

(** Conversion of a mathematical integer to [unsigned int]. *)
Definition to_unsigned (z : Z) : Z := z mod modulus.

(** Conversion of a mathematical integer to [int]. *)
Definition to_signed (z : Z) : Z := (z + half_modulus) mod modulus - half_modulus.

Definition in_range (z : Z) : Prop := - half_modulus <= z < half_modulus.

(** [i += stride] on [int] operands.  The language defines the result only
    when the sum is representable ([add_defined]); outside of that the value
    given here is the wrap-around of the machine's 32-bit add, which a
    compiler need not preserve. *)
Definition add (a b : Z) : Z := to_signed (a + b).

(** Whether [a + b] on [int] operands is free of signed overflow. *)
Definition add_defined (a b : Z) : bool :=
  (- half_modulus <=? a + b) && (a + b <? half_modulus).

End Int32.

(** ** Device memory

  A buffer is addressed through a pointer; [data[i]] denotes the cell [i]
  elements away from it.  Memory is a total map from element offsets to
  values, so that a store at any offset (also one outside the caller's
  allocation) is visible in the model. *)

Definition mem (T : Type) : Type := Z -> T.

Definition store {T : Type} (m : mem T) (i : Z) (v : T) : mem T :=
fun j => if Z.eqb j i then v else m j.

(** The index range [0, n) of a data-parallel stage. *)
Definition zrange (n : Z) : list Z := map Z.of_nat (seq 0 (Z.to_nat n)).

(** ** [initArray] (UtilKernels.hpp, lines 40-58) *)

Module InitArray.

(** Launch configuration and thread coordinates (the [x] components of
    [blockDim], [gridDim], [blockIdx] and [threadIdx], all [unsigned int]). *)
Record launch : Type := Launch { blockDim_x : Z; gridDim_x : Z }.
Record thread : Type := Thread { blockIdx_x : Z; threadIdx_x : Z }.

(** The two preprocessor branches: the device pass ([__CUDA_ARCH__] defined)
    runs one thread of a launch, the host pass fixes [idx = 0], [stride = 0]. *)
Inductive target : Type :=
| Device (l : launch) (t : thread)
| Host.

(** [int idx = blockDim.x * blockIdx.x + threadIdx.x;] *)
Definition idx (tg : target) : Z :=
  match tg with
  | Device l t =>
      Int32.to_signed
        (Int32.to_unsigned
           (Int32.to_unsigned (blockDim_x l * blockIdx_x t) + threadIdx_x t))
  | Host => 0
  end.

(** [int stride = blockDim.x * gridDim.x;] *)
Definition stride (tg : target) : Z :=
  match tg with
  | Device l _ => Int32.to_signed (Int32.to_unsigned (blockDim_x l * gridDim_x l))
  | Host => 0
  end.

(** Result of running the loop for a bounded number of iterations: the loop
    left through its guard, or the bound was reached first.  Either way the
    memory reached so far is kept. *)
Inductive outcome (T : Type) : Type :=
| Done (m : mem T)
| OutOfFuel (m : mem T).
Arguments Done {T} m.
Arguments OutOfFuel {T} m.

Definition outcome_mem {T : Type} (o : outcome T) : mem T :=
  match o with Done m | OutOfFuel m => m end.

Definition is_done {T : Type} (o : outcome T) : bool :=
  match o with Done _ => true | OutOfFuel _ => false end.

(** [for (int i = idx; i < size; i += stride) data[i] = val;]

    The memory reported is the program's where the execution leaves the loop
    without an overflowing increment; [overflows] and [may_observe] below
    say what the language allows otherwise. *)
Fixpoint loop {T : Type} (fuel : nat) (i stride size : Z) (val : T) (data : mem T)
  : outcome T :=
  match fuel with
  | O => OutOfFuel data
  | S fuel' =>
      if i <? size
      then loop fuel' (Int32.add i stride) stride size val (store data i val)
      else Done data
  end.

(** One execution of the kernel body. *)
Definition initArray {T : Type} (fuel : nat) (tg : target)
           (data : mem T) (size : Z) (val : T) : outcome T :=
  loop fuel (idx tg) (stride tg) size val data.

(** Several executions of the body on the same buffer, one after the other.
    The loop variable is local to an execution and every store writes the
    same [val], so the order in which the executions are taken does not
    matter ([run_order_irrelevant] below). *)
Fixpoint run {T : Type} (fuel : nat) (tgs : list target)
         (data : mem T) (size : Z) (val : T) : outcome T :=
  match tgs with
  | [] => Done data
  | tg :: rest =>
      match initArray fuel tg data size val with
      | Done m => run fuel rest m size val
      | OutOfFuel m => OutOfFuel m
      end
  end.

(** All threads of a launch: [gridDim.x] blocks of [blockDim.x] threads. *)
Definition threads (l : launch) : list thread :=
  flat_map (fun b => map (fun t => Thread b t) (zrange (blockDim_x l)))
           (zrange (gridDim_x l)).

(** [initArray<<<gridDim, blockDim>>>(data, size, val)]. *)
Definition initArray_launch {T : Type} (fuel : nat) (l : launch)
           (data : mem T) (size : Z) (val : T) : outcome T :=
  run fuel (map (Device l) (threads l)) data size val.

(** The cells the loop stores to within [fuel] iterations. *)
Fixpoint touched (fuel : nat) (i stride size : Z) (j : Z) : bool :=
  match fuel with
  | O => false
  | S fuel' =>
      if i <? size
      then Z.eqb j i || touched fuel' (Int32.add i stride) stride size j
      else false
  end.

(** Whether the loop leaves through its guard within [fuel] iterations. *)
Fixpoint finishes (fuel : nat) (i stride size : Z) : bool :=
  match fuel with
  | O => false
  | S fuel' =>
      if i <? size then finishes fuel' (Int32.add i stride) stride size else true
  end.

(** The same two readings for a sequence of executions. *)
Fixpoint run_touched (fuel : nat) (tgs : list target) (size : Z) (j : Z) : bool :=
  match tgs with
  | [] => false
  | tg :: rest =>
      touched fuel (idx tg) (stride tg) size j
      || (finishes fuel (idx tg) (stride tg) size && run_touched fuel rest size j)
  end.

Fixpoint run_finishes (fuel : nat) (tgs : list target) (size : Z) : bool :=
  match tgs with
  | [] => true
  | tg :: rest =>
      finishes fuel (idx tg) (stride tg) size && run_finishes fuel rest size
  end.

(** Whether the loop executes, within [fuel] iterations, an increment
    [i += stride] that overflows [int]: undefined behaviour in C++. *)
Fixpoint overflows (fuel : nat) (i stride size : Z) : bool :=
  match fuel with
  | O => false
  | S fuel' =>
      if i <? size
      then negb (Int32.add_defined i stride)
           || overflows fuel' (Int32.add i stride) stride size
      else false
  end.

(** Whether some execution of a run does. *)
Definition run_overflows (fuel : nat) (tgs : list target) (size : Z) : bool :=
  existsb (fun tg => overflows fuel (idx tg) (stride tg) size) tgs.

(** What the language lets a caller observe after the kernel, looking at
    executions of at most [fuel] iterations per thread: once an increment
    has overflowed the behaviour is undefined and any memory may be found;
    otherwise, when every thread has left its loop, the memory found is the
    one [run] reaches. *)
Definition may_observe {T : Type} (fuel : nat) (tgs : list target)
           (data : mem T) (size : Z) (val : T) (m : mem T) : Prop :=
  run_overflows fuel tgs size = true
  \/ (is_done (run fuel tgs data size val) = true
      /\ forall j, m j = outcome_mem (run fuel tgs data size val) j).

End InitArray.

(** ** Single-precision values

    [float] values are IEEE-754 binary32 numbers: signed zeros, infinities,
    NaN and finite numbers, compared as the hardware compares them (every
    comparison with a NaN operand is false). *)

Module F32.

Definition float : Type := spec_float.

Definition prec : Z := 24.
Definition emax : Z := 128.

Definition of_Z (z : Z) : float := binary_normalize prec emax z 0 false.

(** The sentinel time [-1.0f]. *)
Definition neg_one : float := S754_finite true 8388608 (-23).

Definition zero : float := S754_zero false.


Definition is_finite (x : float) : bool :=
  match x with S754_zero _ | S754_finite _ _ _ => true | _ => false end.

End F32.

(** ** Candidate reduction
    ([simplifyTimePointPairs] and [forceIntersectionOrder],
    UtilKernels.hpp lines 75-85; declarations only) *)

Module Reducer.

Import F32.

(** Modelled from the spec: [Vec3<float>] (Vec3.hpp is not part of the
    sources); a point is three scalars. *)
Record Vec3 : Type := mkVec3 { vec_x : float; vec_y : float; vec_z : float }.

Definition zero_point : Vec3 := mkVec3 zero zero zero.

(** A (time, point) entry of a candidate group or of a canonical pair. *)
Definition entry : Type := (float * Vec3)%type.

(** Modelled from the spec: the padding of a missing candidate, "the
    sentinel time -1 and an undefined/zeroed point"; the zeroed point is
    taken. *)
Definition sentinel_entry : entry := (neg_one, zero_point).

(** Modelled from the spec: the body of [simplifyTimePointPairs] is missing;
    an entry is discarded when its time is "non-physical (negative or
    non-finite)". *)
Definition valid_time (t : float) : bool :=
  is_finite t && negb (SFltb t zero).

(** Modelled from the spec: the body of [simplifyTimePointPairs] is missing;
    the scan retains "the two smallest valid times".  [best] holds the
    smallest and second smallest entries met so far; among equal times the
    one met first stays in front. *)
Definition keep_two (best : option entry * option entry) (c : entry)
  : option entry * option entry :=
  match best with
  | (None, _) => (Some c, None)
  | (Some a, None) =>
      if SFltb (fst c) (fst a) then (Some c, Some a) else (Some a, Some c)
  | (Some a, Some b) =>
      if SFltb (fst c) (fst a) then (Some c, Some a)
      else if SFltb (fst c) (fst b) then (Some a, Some c)
      else (Some a, Some b)
  end.

Definition scan_step (best : option entry * option entry) (c : entry)
  : option entry * option entry :=
  if valid_time (fst c) then keep_two best c else best.

Definition two_smallest (cs : list entry) : option entry * option entry :=
  fold_left scan_step cs (None, None).

Definition slot (o : option entry) : entry :=
  match o with Some e => e | None => sentinel_entry end.

(** A time buffer with its companion point buffer. *)
Definition buffers : Type := (mem float * mem Vec3)%type.

Definition read (b : buffers) (k : Z) : entry := (fst b k, snd b k).

Definition write (b : buffers) (k : Z) (e : entry) : buffers :=
  (store (fst b) k (fst e), store (snd b) k (snd e)).

(** The two entries of ray [index] in a 2-per-ray buffer. *)
Definition ray_pair (b : buffers) (index : Z) : entry * entry :=
  (read b (2 * index), read b (2 * index + 1)).

(** The candidate group of ray [index]: [inputGroupTime] times and their
    points, laid out with strides [inputGroupTime] and [inputGroupCoord]. *)
Definition candidate_group (times : mem float) (coords : mem Vec3)
           (inputGroupTime inputGroupCoord index : Z) : list entry :=
  map (fun i => (times (inputGroupTime * index + i),
                 coords (inputGroupCoord * index + i)))
      (zrange inputGroupTime).

(** Modelled from the spec: the body of [simplifyTimePointPairs] is missing;
    per ray, the two retained entries are written "with their associated
    points" into the ray's output slots, the sentinel padding the rest. *)
Definition simplify_ray (times : mem float) (coords : mem Vec3)
           (inputGroupTime inputGroupCoord outputGroupSize : Z)
           (out : buffers) (index : Z) : buffers :=
  let best := two_smallest
                (candidate_group times coords inputGroupTime inputGroupCoord index) in
  write (write out (outputGroupSize * index) (slot (fst best)))
        (outputGroupSize * index + 1) (slot (snd best)).

(** Modelled from the spec: the kernel [simplifyTimePointPairs], one ray per
    index in [0, N). *)
Definition simplifyTimePointPairs (times : mem float) (coords : mem Vec3) (N : Z)
           (inputGroupTime inputGroupCoord outputGroupSize : Z)
           (simp_times : mem float) (simp_coords : mem Vec3) : buffers :=
  fold_left
    (simplify_ray times coords inputGroupTime inputGroupCoord outputGroupSize)
    (zrange N) (simp_times, simp_coords).

(** Modelled from the spec: the body of [forceIntersectionOrder] is missing;
    "ensure entry-time <= exit-time by swapping both the time and point
    fields together if out of order". *)
Definition force_pair (p : entry * entry) : entry * entry :=
  let (e0, e1) := p in
  if SFltb (fst e1) (fst e0) then (e1, e0) else (e0, e1).

Definition force_ray (b : buffers) (index : Z) : buffers :=
  let e0 := read b (2 * index) in
  let e1 := read b (2 * index + 1) in
  if SFltb (fst e1) (fst e0)
  then write (write b (2 * index) e1) (2 * index + 1) e0
  else b.

(** Modelled from the spec: the kernel [forceIntersectionOrder], one ray per
    index in [0, N). *)
Definition forceIntersectionOrder (ts : mem float) (coords : mem Vec3) (N : Z)
  : buffers :=
  fold_left force_ray (zrange N) (ts, coords).

(** The Candidate Reducer stage: [simplifyTimePointPairs] writing two entries
    per ray, then [forceIntersectionOrder] on its output. *)
Definition candidateReducer (times : mem float) (coords : mem Vec3) (N : Z)
           (inputGroupTime inputGroupCoord : Z)
           (simp_times : mem float) (simp_coords : mem Vec3) : buffers :=
  let simp := simplifyTimePointPairs times coords N inputGroupTime inputGroupCoord 2
                                     simp_times simp_coords in
  forceIntersectionOrder (fst simp) (snd simp) N.

(** A canonical pair: two valid times in order, or the sentinel pair. *)
Definition canonical (e0 e1 : entry) : Prop :=
  (valid_time (fst e0) = true /\ valid_time (fst e1) = true
   /\ SFleb (fst e0) (fst e1) = true)
  \/ (e0 = sentinel_entry /\ e1 = sentinel_entry).


End Reducer.

(** * Properties *)

(** ** Machine integers and memory *)

Module Int32Facts.

Import Int32.

Lemma to_signed_in_range (z : Z) : in_range (to_signed z).
Proof.
  unfold in_range, to_signed.
  pose proof (Z.mod_pos_bound (z + half_modulus) modulus eq_refl) as B.
  unfold modulus, half_modulus in *. lia.
Qed.

Lemma to_signed_small (z : Z) : in_range z -> to_signed z = z.
Proof.
  unfold in_range, to_signed, half_modulus, modulus. intros R.
  rewrite Z.mod_small by lia. lia.
Qed.

Lemma to_unsigned_small (z : Z) : 0 <= z < modulus -> to_unsigned z = z.
Proof. intros R. unfold to_unsigned. now apply Z.mod_small. Qed.

(** Wrap-around keeps the parity: the modulus is even. *)
Lemma to_signed_even (z : Z) : Z.even (to_signed z) = Z.even z.
Proof.
  unfold to_signed.
  rewrite (Z.mod_eq (z + half_modulus) modulus) by (unfold modulus; lia).
  rewrite !Z.even_sub, Z.even_add, Z.even_mul.
  change (Z.even half_modulus) with true.
  change (Z.even modulus) with true.
  simpl. now destruct (Z.even z).
Qed.

Lemma add_no_overflow (a b : Z) : in_range (a + b) -> add a b = a + b.
Proof. apply to_signed_small. Qed.

End Int32Facts.

Lemma store_same {T : Type} (m : mem T) (i : Z) (v : T) : store m i v i = v.
Proof. unfold store. now rewrite Z.eqb_refl. Qed.

Lemma store_other {T : Type} (m : mem T) (i j : Z) (v : T) :
  j <> i -> store m i v j = m j.
Proof. intros N. unfold store. now destruct (Z.eqb_spec j i). Qed.

Lemma in_zrange (n i : Z) : In i (zrange n) <-> 0 <= i < n.
Proof.
  unfold zrange. rewrite in_map_iff. split.
  - intros [k [E K]]. apply in_seq in K. lia.
  - intros R. exists (Z.to_nat i). split; [lia|]. apply in_seq. lia.
Qed.

Lemma NoDup_zrange (n : Z) : NoDup (zrange n).
Proof.
  unfold zrange. apply Injective_map_NoDup.
  - intros a b E. lia.
  - apply seq_NoDup.
Qed.

(** ** [initArray] *)

Module InitArrayFacts.

Import InitArray.

Section Loop.

Context {T : Type}.
Variables (stride size : Z) (val : T).

(** The memory the loop reaches is the initial one with [val] at the cells it
    stored to; which cells these are does not depend on the memory. *)
Lemma loop_mem (fuel : nat) : forall (i : Z) (data : mem T) (j : Z),
  outcome_mem (loop fuel i stride size val data) j
  = if touched fuel i stride size j then val else data j.
Proof.
  induction fuel as [|fuel IH]; intros i data j; simpl; [reflexivity|].
  destruct (i <? size); simpl; [|reflexivity].
  rewrite IH. unfold store.
  destruct (Z.eqb j i); simpl; [|reflexivity].
  now destruct (touched fuel (Int32.add i stride) stride size j).
Qed.

Lemma loop_done (fuel : nat) : forall (i : Z) (data : mem T),
  is_done (loop fuel i stride size val data) = finishes fuel i stride size.
Proof.
  induction fuel as [|fuel IH]; intros i data; simpl; [reflexivity|].
  destruct (i <? size); [apply IH|reflexivity].
Qed.

End Loop.

(** Every store of the loop is guarded by [i < size]. *)
Lemma touched_below_size (stride size : Z) (fuel : nat) : forall (i j : Z),
  touched fuel i stride size j = true -> j < size.
Proof.
  induction fuel as [|fuel IH]; intros i j; simpl; [discriminate|].
  destruct (Z.ltb_spec i size) as [L|L]; [|discriminate].
  intros H. apply orb_true_iff in H. destruct H as [H|H].
  - apply Z.eqb_eq in H. lia.
  - now apply IH in H.
Qed.

(** Without overflow the loop variable only grows: nothing below its start
    is stored to. *)
Lemma touched_from_start (stride size : Z) (fuel : nat) : forall (i j : Z),
  0 <= i -> 0 <= stride -> size + stride <= Int32.half_modulus ->
  touched fuel i stride size j = true -> i <= j.
Proof.
  induction fuel as [|fuel IH]; intros i j I S B; simpl; [discriminate|].
  destruct (Z.ltb_spec i size) as [L|L]; [|discriminate].
  intros H. apply orb_true_iff in H. destruct H as [H|H].
  - apply Z.eqb_eq in H. lia.
  - rewrite Int32Facts.add_no_overflow in H
      by (unfold Int32.in_range, Int32.half_modulus in *; lia).
    apply IH in H; lia.
Qed.

(** Without overflow and with a positive stride the loop leaves after at most
    [size - i] iterations and has stored to every cell [i + k * stride] below
    [size]. *)
Lemma loop_covers (stride size : Z) (fuel : nat) : forall (i : Z),
  0 <= i -> 1 <= stride -> size + stride <= Int32.half_modulus ->
  (Z.to_nat (size - i) < fuel)%nat ->
  finishes fuel i stride size = true
  /\ forall j, i <= j < size -> (j - i) mod stride = 0 ->
               touched fuel i stride size j = true.
Proof.
  induction fuel as [|fuel IH]; intros i I S B F; [lia|]. simpl.
  destruct (Z.ltb_spec i size) as [L|L].
  - rewrite Int32Facts.add_no_overflow
      by (unfold Int32.in_range, Int32.half_modulus in *; lia).
    destruct (IH (i + stride)) as [Fin Cov]; try lia.
    split; [exact Fin|]. intros j R M.
    destruct (Z.eqb_spec j i) as [E|E]; [reflexivity|]. simpl.
    apply Cov.
    + apply Z.mod_divide in M; [|lia]. destruct M as [q Q].
      assert (1 <= q) by nia. nia.
    + replace (j - (i + stride)) with (j - i + (-1) * stride) by lia.
      rewrite Z.mod_add by lia. exact M.
  - split; [reflexivity|]. intros j R. lia.
Qed.

Section Run.

Context {T : Type}.
Variables (size : Z) (val : T) (fuel : nat).

Lemma run_mem : forall (tgs : list target) (data : mem T) (j : Z),
  outcome_mem (run fuel tgs data size val) j
  = if run_touched fuel tgs size j then val else data j.
Proof.
  induction tgs as [|tg rest IH]; intros data j; simpl; [reflexivity|].
  unfold initArray.
  pose proof (loop_mem (stride tg) size val fuel (idx tg) data j) as M.
  pose proof (loop_done (stride tg) size val fuel (idx tg) data) as D.
  destruct (loop fuel (idx tg) (stride tg) size val data) as [m|m];
    simpl in M, D; rewrite <- D.
  - rewrite IH, M. simpl.
    destruct (touched fuel (idx tg) (stride tg) size j); simpl; [|reflexivity].
    now destruct (run_touched fuel rest size j).
  - simpl. rewrite ?andb_false_l, ?orb_false_r. exact M.
Qed.

Lemma run_done : forall (tgs : list target) (data : mem T),
  is_done (run fuel tgs data size val) = run_finishes fuel tgs size.
Proof.
  induction tgs as [|tg rest IH]; intros data; simpl; [reflexivity|].
  unfold initArray.
  pose proof (loop_done (stride tg) size val fuel (idx tg) data) as D.
  destruct (loop fuel (idx tg) (stride tg) size val data) as [m|m];
    simpl in D; rewrite <- D; simpl; [apply IH|reflexivity].
Qed.

End Run.

Lemma run_touched_below_size (fuel : nat) (size : Z) : forall (tgs : list target) (j : Z),
  run_touched fuel tgs size j = true -> j < size.
Proof.
  induction tgs as [|tg rest IH]; intros j; simpl; [discriminate|].
  intros H. apply orb_true_iff in H. destruct H as [H|H].
  - now apply touched_below_size in H.
  - apply andb_true_iff in H. now apply IH.
Qed.

(** When every execution finishes, a cell is stored to exactly when one of
    the executions stores to it, whatever their order. *)
Lemma run_touched_exists (fuel : nat) (size : Z) : forall (tgs : list target) (j : Z),
  run_finishes fuel tgs size = true ->
  run_touched fuel tgs size j
  = existsb (fun tg => touched fuel (idx tg) (stride tg) size j) tgs.
Proof.
  induction tgs as [|tg rest IH]; intros j; simpl; [reflexivity|].
  intros H. apply andb_true_iff in H. destruct H as [H1 H2].
  now rewrite H1, IH.
Qed.

Lemma touched_none (stride size : Z) (fuel : nat) (i j : Z) :
  size <= i -> touched fuel i stride size j = false.
Proof.
  intros L. destruct fuel as [|fuel]; simpl; [reflexivity|].
  now destruct (Z.ltb_spec i size); [lia|].
Qed.

Lemma finishes_at_once (stride size : Z) (fuel : nat) (i : Z) :
  size <= i -> finishes (S fuel) i stride size = true.
Proof.
  intros L. simpl. now destruct (Z.ltb_spec i size); [lia|].
Qed.

Lemma run_finishes_all (fuel : nat) (size : Z) (tgs : list target) :
  (forall tg, In tg tgs -> finishes fuel (idx tg) (stride tg) size = true) ->
  run_finishes fuel tgs size = true.
Proof.
  induction tgs as [|tg rest IH]; intros H; simpl; [reflexivity|].
  rewrite H by now left. apply IH. intros tg' I. apply H. now right.
Qed.

(** *** Order of the threads *)

Lemma run_finishes_perm (fuel : nat) (size : Z) (tgs tgs' : list target) :
  Permutation tgs tgs' -> run_finishes fuel tgs size = run_finishes fuel tgs' size.
Proof.
  induction 1 as [|tg l l' P IH|a b l|l l' l'' P1 IH1 P2 IH2]; simpl.
  - reflexivity.
  - now rewrite IH.
  - rewrite !andb_assoc. f_equal. apply andb_comm.
  - congruence.
Qed.

Lemma touched_exists_perm (fuel : nat) (size j : Z) (tgs tgs' : list target) :
  Permutation tgs tgs' ->
  existsb (fun tg => touched fuel (idx tg) (stride tg) size j) tgs
  = existsb (fun tg => touched fuel (idx tg) (stride tg) size j) tgs'.
Proof.
  induction 1 as [|tg l l' P IH|a b l|l l' l'' P1 IH1 P2 IH2]; simpl.
  - reflexivity.
  - now rewrite IH.
  - rewrite !orb_assoc. f_equal. apply orb_comm.
  - congruence.
Qed.

(** The executions of a run that finishes can be taken in any order: the
    memory reached is the same. *)
Lemma run_order_irrelevant {T : Type} (fuel : nat) (size : Z) (val : T)
      (tgs tgs' : list target) (data : mem T) (j : Z) :
  Permutation tgs tgs' ->
  run_finishes fuel tgs size = true ->
  outcome_mem (run fuel tgs data size val) j
  = outcome_mem (run fuel tgs' data size val) j.
Proof.
  intros P F. rewrite !run_mem.
  rewrite (run_touched_exists fuel size tgs j F).
  rewrite (run_touched_exists fuel size tgs' j)
    by (now rewrite <- (run_finishes_perm fuel size tgs tgs' P)).
  now rewrite (touched_exists_perm fuel size j tgs tgs' P).
Qed.

(** *** The threads of a launch *)

Lemma in_threads (l : launch) (t : thread) :
  In t (threads l)
  <-> 0 <= blockIdx_x t < gridDim_x l /\ 0 <= threadIdx_x t < blockDim_x l.
Proof.
  unfold threads. rewrite in_flat_map. split.
  - intros [b [Hb Ht]]. apply in_map_iff in Ht. destruct Ht as [t' [E Ht']].
    subst t. simpl. apply in_zrange in Hb. apply in_zrange in Ht'. lia.
  - intros [Hb Ht]. exists (blockIdx_x t). split; [now apply in_zrange|].
    apply in_map_iff. exists (threadIdx_x t).
    split; [now destruct t|now apply in_zrange].
Qed.

(** In a launch of at most 2^31 threads the index computation does not wrap:
    thread [(b, t)] starts at [blockDim * b + t]. *)
Lemma device_idx (l : launch) (t : thread) :
  blockDim_x l * gridDim_x l <= Int32.half_modulus ->
  In t (threads l) ->
  idx (Device l t) = blockDim_x l * blockIdx_x t + threadIdx_x t
  /\ 0 <= idx (Device l t) < blockDim_x l * gridDim_x l.
Proof.
  intros B I. apply in_threads in I. destruct I as [Ib It].
  assert (R : 0 <= blockDim_x l * blockIdx_x t + threadIdx_x t
              < blockDim_x l * gridDim_x l) by nia.
  assert (R' : 0 <= blockDim_x l * blockIdx_x t < blockDim_x l * gridDim_x l) by nia.
  unfold idx.
  rewrite (Int32Facts.to_unsigned_small (blockDim_x l * blockIdx_x t))
    by (unfold Int32.modulus, Int32.half_modulus in *; lia).
  rewrite Int32Facts.to_unsigned_small
    by (unfold Int32.modulus, Int32.half_modulus in *; lia).
  rewrite Int32Facts.to_signed_small
    by (unfold Int32.in_range, Int32.half_modulus in *; lia).
  split; [reflexivity|exact R].
Qed.

Lemma device_stride (l : launch) (t : thread) :
  0 <= blockDim_x l * gridDim_x l < Int32.half_modulus ->
  stride (Device l t) = blockDim_x l * gridDim_x l.
Proof.
  intros B. unfold stride.
  rewrite Int32Facts.to_unsigned_small
    by (unfold Int32.modulus, Int32.half_modulus in *; lia).
  apply Int32Facts.to_signed_small.
  unfold Int32.in_range, Int32.half_modulus in *; lia.
Qed.

(** What one thread of a launch does when neither the index computation nor
    the loop variable can overflow. *)
Lemma device_thread (l : launch) (t : thread) (size : Z) (fuel : nat) :
  1 <= blockDim_x l -> 1 <= gridDim_x l ->
  blockDim_x l * gridDim_x l + Z.max 0 size <= Int32.half_modulus ->
  (Z.to_nat size < fuel)%nat ->
  In t (threads l) ->
  finishes fuel (idx (Device l t)) (stride (Device l t)) size = true
  /\ (forall j, touched fuel (idx (Device l t)) (stride (Device l t)) size j = true ->
                0 <= j < size)
  /\ (forall j, idx (Device l t) <= j < size ->
                (j - idx (Device l t)) mod (blockDim_x l * gridDim_x l) = 0 ->
                touched fuel (idx (Device l t)) (stride (Device l t)) size j = true).
Proof.
  intros HB HG Fit F I.
  destruct (device_idx l t) as [_ Ri]; [lia|exact I|].
  set (i := idx (Device l t)) in *.
  destruct (Z.le_gt_cases size i) as [L|L].
  - destruct fuel as [|fuel]; [lia|].
    split; [now apply finishes_at_once|].
    split; intros j; [now rewrite touched_none|lia].
  - assert (S : stride (Device l t) = blockDim_x l * gridDim_x l)
      by (apply device_stride; nia).
    rewrite S.
    destruct (loop_covers (blockDim_x l * gridDim_x l) size fuel i) as [Fin Cov];
      try lia; try nia.
    split; [exact Fin|]. split; [|exact Cov].
    intros j H. split.
    + apply touched_from_start in H; lia || nia.
    + now apply touched_below_size in H.
Qed.

(** *** Overflow of the loop variable *)

(** With [size = INT_MAX] and [stride = 2] a loop variable that starts even
    stays even through the wrap-around, so it never reaches [INT_MAX] and the
    guard [i < size] never fails. *)
Lemma loop_even_spins {T : Type} (val : T) (fuel : nat) : forall (i : Z) (data : mem T),
  Int32.in_range i -> Z.even i = true ->
  is_done (loop fuel i 2 Int32.max_signed val data) = false.
Proof.
  induction fuel as [|fuel IH]; intros i data R E; simpl; [reflexivity|].
  destruct (Z.ltb_spec i Int32.max_signed) as [L|L].
  - apply IH.
    + apply Int32Facts.to_signed_in_range.
    + unfold Int32.add. rewrite Int32Facts.to_signed_even, Z.even_add, E.
      reflexivity.
  - assert (i = Int32.max_signed)
      by (unfold Int32.in_range, Int32.half_modulus, Int32.max_signed in *; lia).
    subst i. discriminate E.
Qed.

(** *** The claims *)

(** C5 (amended).  For a launch of [gridDim] blocks of [blockDim] threads
    (both at least 1) and a size [N] with
    [blockDim * gridDim + max 0 N <= 2^31], every thread of [initArray]
    leaves its loop within [N + 1] iterations, and afterwards every element
    at an index [0 <= i < N] equals [val]; the elements at all other offsets
    are as before. *)
Theorem initArray_launch_fills (T : Type) (l : launch) (data : mem T)
        (size : Z) (val : T) (fuel : nat) :
  1 <= blockDim_x l -> 1 <= gridDim_x l ->
  blockDim_x l * gridDim_x l + Z.max 0 size <= Int32.half_modulus ->
  (Z.to_nat size < fuel)%nat ->
  exists m : mem T,
    initArray_launch fuel l data size val = Done m
    /\ (forall i, 0 <= i < size -> m i = val)
    /\ (forall i, ~ 0 <= i < size -> m i = data i).
Proof.
  intros HB HG Fit F. unfold initArray_launch.
  set (tgs := map (Device l) (threads l)).
  assert (Each : forall tg, In tg tgs -> exists t, tg = Device l t /\ In t (threads l)).
  { intros tg I. apply in_map_iff in I. destruct I as [t [E I]]. now exists t. }
  assert (Fin : run_finishes fuel tgs size = true).
  { apply run_finishes_all. intros tg I. destruct (Each tg I) as [t [-> It]].
    now apply device_thread. }
  pose proof (run_done size val fuel tgs data) as D. rewrite Fin in D.
  pose proof (run_mem size val fuel tgs data) as M.
  destruct (run fuel tgs data size val) as [m|m]; [|discriminate D].
  exists m. split; [reflexivity|]. simpl in M. split.
  - intros i R. rewrite M.
    set (n := blockDim_x l * gridDim_x l).
    assert (Pn : 0 < n) by (subst n; nia).
    set (t := Thread ((i mod n) / blockDim_x l) ((i mod n) mod blockDim_x l)).
    assert (It : In t (threads l)).
    { apply in_threads. subst t. simpl.
      pose proof (Z.mod_pos_bound i n Pn).
      pose proof (Z.mod_pos_bound (i mod n) (blockDim_x l)).
      split; [|lia]. split; [apply Z.div_pos; lia|].
      apply Z.div_lt_upper_bound; [lia|]. subst n. lia. }
    destruct (device_idx l t) as [Ei _]; [lia|exact It|].
    assert (Ei' : idx (Device l t) = i mod n).
    { rewrite Ei. subst t. simpl.
      symmetry. apply Z.div_mod. lia. }
    destruct (device_thread l t size fuel HB HG Fit F It) as [_ [_ Cov]].
    assert (W : run_touched fuel tgs size i = true).
    { rewrite run_touched_exists by exact Fin.
      apply existsb_exists. exists (Device l t). split.
      - subst tgs. now apply in_map.
      - apply Cov.
        + rewrite Ei'. pose proof (Z.mod_le i n). lia.
        + rewrite Ei'. fold n. rewrite Zminus_mod_idemp_r, Z.sub_diag.
          now apply Z.mod_0_l; lia. }
    now rewrite W.
  - intros i R. rewrite M.
    destruct (run_touched fuel tgs size i) eqn:W; [|reflexivity].
    exfalso. apply R.
    rewrite run_touched_exists in W by exact Fin.
    apply existsb_exists in W. destruct W as [tg [I W]].
    destruct (Each tg I) as [t [-> It]].
    destruct (device_thread l t size fuel HB HG Fit F It) as [_ [Only _]].
    now apply Only.
Qed.

Lemma initArray_launch_fills_witness :
  exists m : mem Z,
    initArray_launch 6 (Launch 2 2) (fun _ => 0) 5 7 = Done m
    /\ (forall i, 0 <= i < 5 -> m i = 7)
    /\ (forall i, ~ 0 <= i < 5 -> m i = 0).
Proof.
  apply (initArray_launch_fills Z (Launch 2 2) (fun _ => 0) 5 7 6).
  - simpl. lia.
  - simpl. lia.
  - simpl. unfold Int32.half_modulus. lia.
  - simpl. lia.
Defined.

(** C5 as stated fails at the top of the [int] range.  For [N = INT_MAX] and
    a launch of one block of two threads, thread 0 runs with [stride = 2]:
    after the store at [i = 2147483646] the increment wraps around to
    [-2147483648], the guard still holds, and the loop never ends. *)
Lemma initArray_launch_overflow :
  ~ exists (fuel : nat) (m : mem Z),
      initArray_launch fuel (Launch 2 1) (fun _ => 0) 2147483647 1 = Done m
      /\ forall i, 0 <= i < 2147483647 -> m i = 1.
Proof.
  intros [fuel [m [H _]]].
  assert (D : is_done (initArray_launch fuel (Launch 2 1) (fun _ => 0) 2147483647 1)
              = false).
  { unfold initArray_launch.
    change (threads (Launch 2 1)) with [Thread 0 0; Thread 0 1].
    rewrite run_done. simpl run_finishes.
    change (Int32.to_signed (Int32.to_unsigned 0)) with 0.
    change (Int32.to_signed (Int32.to_unsigned 2)) with 2.
    rewrite <- (loop_done 2 2147483647 1 fuel 0 (fun _ => 0)).
    change 2147483647 with Int32.max_signed.
    rewrite loop_even_spins; [reflexivity| |reflexivity].
    unfold Int32.in_range, Int32.half_modulus. lia. }
  rewrite H in D. discriminate D.
Qed.

End InitArrayFacts.

(** ** Comparisons of single-precision values *)

Module F32Facts.

Import F32.

Lemma compare_antisym (a b : float) :
  SFcompare b a = option_map CompOpp (SFcompare a b).
Proof.
  destruct a as [sa|sa| |sa ma ea], b as [sb|sb| |sb mb eb]; simpl;
    try reflexivity;
    try (destruct sa; reflexivity);
    try (destruct sb; reflexivity);
    try (destruct sa, sb; reflexivity).
  destruct sa, sb; simpl; try reflexivity;
    rewrite (Z.compare_antisym ea eb);
    destruct (ea ?= eb); simpl; try reflexivity;
    rewrite (Pos.compare_cont_antisym ma mb Eq); reflexivity.
Qed.


Lemma leb_not_gt (a b : float) : SFleb a b = true -> SFltb b a = false.
Proof.
  unfold SFltb, SFleb. rewrite (compare_antisym a b).
  now destruct (SFcompare a b) as [[| |]|].
Qed.




End F32Facts.

(** ** Data-parallel stages

    A stage runs one step per ray index.  When a step rewrites what is
    observed of its own ray by [g] and leaves what is observed of the other
    rays alone, the whole stage rewrites every ray of its range by [g]. *)

Section Parfor.

Variables (St Obs : Type).
Variable step : St -> Z -> St.
Variable obs : St -> Z -> Obs.
Variable g : Z -> Obs -> Obs.

Hypothesis step_own : forall st i, obs (step st i) i = g i (obs st i).
Hypothesis step_other : forall st a i, a <> i -> obs (step st a) i = obs st i.

Lemma parfor_other (l : list Z) : forall (st : St) (i : Z),
  ~ In i l -> obs (fold_left step l st) i = obs st i.
Proof.
  induction l as [|a l IH]; intros st i N; simpl; [reflexivity|].
  rewrite IH by (intros I; apply N; now right).
  apply step_other. intros E. apply N. now left.
Qed.

Lemma parfor_own (l : list Z) : forall (st : St) (i : Z),
  NoDup l -> In i l -> obs (fold_left step l st) i = g i (obs st i).
Proof.
  induction l as [|a l IH]; intros st i D I; simpl; [contradiction|].
  inversion D as [|a' l' Na Dl]; subst.
  destruct I as [E|I].
  - subst a. rewrite parfor_other by exact Na. apply step_own.
  - rewrite IH by assumption.
    rewrite step_other; [reflexivity|]. intros E. subst a. contradiction.
Qed.

End Parfor.

(** ** Candidate reduction *)

Module ReducerFacts.

Import F32 Reducer.

(** *** One ray's scan *)



Lemma sentinel_not_valid : valid_time neg_one = false.
Proof. reflexivity. Qed.






(** *** Ordering of one pair *)


(** *** Buffers *)

Lemma read_write_same (b : buffers) (k : Z) (e : entry) : read (write b k e) k = e.
Proof. unfold read, write. simpl. rewrite !store_same. now destruct e. Qed.

Lemma read_write_other (b : buffers) (k k' : Z) (e : entry) :
  k' <> k -> read (write b k e) k' = read b k'.
Proof. intros N. unfold read, write. simpl. now rewrite !store_other. Qed.

Lemma ray_pair_write_own (b : buffers) (i : Z) (e0 e1 : entry) :
  ray_pair (write (write b (2 * i) e0) (2 * i + 1) e1) i = (e0, e1).
Proof.
  unfold ray_pair.
  rewrite read_write_other by lia. now rewrite !read_write_same.
Qed.

Lemma ray_pair_write_other (b : buffers) (a i : Z) (e0 e1 : entry) :
  a <> i -> ray_pair (write (write b (2 * a) e0) (2 * a + 1) e1) i = ray_pair b i.
Proof.
  intros N. unfold ray_pair. now rewrite !read_write_other by lia.
Qed.

Lemma ray_pair_force_own (b : buffers) (i : Z) :
  ray_pair (force_ray b i) i = force_pair (ray_pair b i).
Proof.
  unfold force_ray, force_pair. unfold ray_pair at 2.
  destruct (SFltb (fst (read b (2 * i + 1))) (fst (read b (2 * i)))).
  - apply ray_pair_write_own.
  - reflexivity.
Qed.

Lemma ray_pair_force_other (b : buffers) (a i : Z) :
  a <> i -> ray_pair (force_ray b a) i = ray_pair b i.
Proof.
  intros N. unfold force_ray.
  destruct (SFltb (fst (read b (2 * a + 1))) (fst (read b (2 * a)))).
  - now apply ray_pair_write_other.
  - reflexivity.
Qed.

(** *** The two kernels *)

Section Kernels.

Variables (times : mem float) (coords : mem Vec3) (N : Z).
Variables (inputGroupTime inputGroupCoord : Z).

(** After [simplifyTimePointPairs] with two output entries per ray, the pair
    of ray [index] holds the ray's two smallest valid candidates, the
    sentinel standing for a missing one. *)
Lemma simplify_ray_pair (simp_times : mem float) (simp_coords : mem Vec3) (index : Z) :
  0 <= index < N ->
  ray_pair (simplifyTimePointPairs times coords N inputGroupTime inputGroupCoord 2
                                   simp_times simp_coords) index
  = (slot (fst (two_smallest
                  (candidate_group times coords inputGroupTime inputGroupCoord index))),
     slot (snd (two_smallest
                  (candidate_group times coords inputGroupTime inputGroupCoord index)))).
Proof.
  intros R. unfold simplifyTimePointPairs.
  apply (parfor_own buffers (entry * entry)
           (simplify_ray times coords inputGroupTime inputGroupCoord 2) ray_pair
           (fun i _ =>
              (slot (fst (two_smallest
                 (candidate_group times coords inputGroupTime inputGroupCoord i))),
               slot (snd (two_smallest
                 (candidate_group times coords inputGroupTime inputGroupCoord i)))))).
  - intros st i. apply ray_pair_write_own.
  - intros st a i Ne. now apply ray_pair_write_other.
  - apply NoDup_zrange.
  - now apply in_zrange.
Qed.

(** After [forceIntersectionOrder] the pair of ray [index] is the ordered
    version of what it was. *)
Lemma force_order_ray_pair (ts : mem float) (cs : mem Vec3) (index : Z) :
  0 <= index < N ->
  ray_pair (forceIntersectionOrder ts cs N) index
  = force_pair (ray_pair (ts, cs) index).
Proof.
  intros R. unfold forceIntersectionOrder.
  apply (parfor_own buffers (entry * entry) force_ray ray_pair (fun _ p => force_pair p)).
  - intros st i. apply ray_pair_force_own.
  - intros st a i Ne. now apply ray_pair_force_other.
  - apply NoDup_zrange.
  - now apply in_zrange.
Qed.

Lemma reducer_ray_pair (simp_times : mem float) (simp_coords : mem Vec3) (index : Z) :
  0 <= index < N ->
  ray_pair (candidateReducer times coords N inputGroupTime inputGroupCoord
                             simp_times simp_coords) index
  = force_pair
      (slot (fst (two_smallest
                    (candidate_group times coords inputGroupTime inputGroupCoord index))),
       slot (snd (two_smallest
                    (candidate_group times coords inputGroupTime inputGroupCoord index)))).
Proof.
  intros R. unfold candidateReducer.
  rewrite force_order_ray_pair by exact R.
  rewrite <- surjective_pairing. now rewrite simplify_ray_pair.
Qed.

End Kernels.

(** *** A canonical pair as a candidate group *)

Lemma candidate_group_pair (ts : mem float) (cs : mem Vec3) (index : Z) :
  candidate_group ts cs 2 2 index
  = [read (ts, cs) (2 * index); read (ts, cs) (2 * index + 1)].
Proof.
  unfold candidate_group, read. change (zrange 2) with [0; 1].
  cbn [map fst snd]. now rewrite Z.add_0_r.
Qed.

Lemma reduce_canonical (e0 e1 : entry) :
  canonical e0 e1 ->
  force_pair (slot (fst (two_smallest [e0; e1])), slot (snd (two_smallest [e0; e1])))
  = (e0, e1).
Proof.
  unfold two_smallest. cbn [fold_left].
  intros [[V0 [V1 L]]|[E0 E1]].
  - unfold scan_step. rewrite V0. cbn [keep_two]. rewrite V1.
    rewrite (F32Facts.leb_not_gt _ _ L). cbn [fst snd slot force_pair].
    now rewrite (F32Facts.leb_not_gt _ _ L).
  - rewrite E0, E1. reflexivity.
Qed.

(** *** The claims *)



(** The same group, evaluated: the reduced pair is (4, (-1,0,0)), (6, (1,0,0)). *)
Example candidateReducer_example :
  let times : mem float :=
    fun k => if k =? 0 then of_Z 6 else if k =? 1 then of_Z 4 else neg_one in
  let coords : mem Vec3 :=
    fun k => if k =? 0 then mkVec3 (of_Z 1) zero zero
             else if k =? 1 then mkVec3 (of_Z (-1)) zero zero else zero_point in
  ray_pair (candidateReducer times coords 1 6 6 (fun _ => zero) (fun _ => zero_point)) 0
  = ((of_Z 4, mkVec3 (of_Z (-1)) zero zero), (of_Z 6, mkVec3 (of_Z 1) zero zero)).
Proof. vm_compute. reflexivity. Qed.

(** A single valid candidate ends in the exit slot, behind the sentinel. *)
Example candidateReducer_single_example :
  let times : mem float := fun k => if k =? 3 then of_Z 5 else neg_one in
  let coords : mem Vec3 := fun _ => zero_point in
  ray_pair (candidateReducer times coords 1 6 6 (fun _ => zero) (fun _ => zero_point)) 0
  = (sentinel_entry, (of_Z 5, zero_point)).
Proof. vm_compute. reflexivity. Qed.

(** C7.  Candidate Reduction is idempotent: when the pair of ray [index] in
    a 2-per-ray buffer is canonical (two valid times with entry <= exit, or
    the sentinel pair), running the stage on that buffer, read as candidate
    groups of size two, yields the same two (time, point) entries for the
    ray. *)
Theorem candidateReducer_idempotent
        (ts : mem float) (cs : mem Vec3) (N : Z)
        (simp_times : mem float) (simp_coords : mem Vec3) (index : Z) :
  0 <= index < N ->
  canonical (read (ts, cs) (2 * index)) (read (ts, cs) (2 * index + 1)) ->
  ray_pair (candidateReducer ts cs N 2 2 simp_times simp_coords) index
  = ray_pair (ts, cs) index.
Proof.
  intros R C. rewrite reducer_ray_pair by exact R.
  rewrite candidate_group_pair. now apply reduce_canonical.
Qed.

Lemma candidateReducer_idempotent_witness :
  let ts : mem float := fun k => if k =? 0 then of_Z 4 else of_Z 6 in
  let cs : mem Vec3 :=
    fun k => if k =? 0 then mkVec3 (of_Z (-1)) zero zero else mkVec3 (of_Z 1) zero zero in
  ray_pair (candidateReducer ts cs 1 2 2 (fun _ => zero) (fun _ => zero_point)) 0
  = ray_pair (ts, cs) 0.
Proof.
  intros ts cs.
  apply (candidateReducer_idempotent ts cs 1 (fun _ => zero) (fun _ => zero_point) 0).
  - lia.
  - left. repeat split; reflexivity.
Defined.

End ReducerFacts.

(** ** Further properties of [initArray] (UtilKernels.hpp, lines 40-58) *)

Module InitArrayCoverage.

Import InitArray InitArrayFacts.

(** *** Helper lemmas *)

(** Without overflow every cell the loop stores to lies a multiple of the
    stride above its start. *)
Lemma touched_stride_class (stride size : Z) (fuel : nat) : forall (i j : Z),
  0 <= i -> 1 <= stride -> size + stride <= Int32.half_modulus ->
  touched fuel i stride size j = true -> (j - i) mod stride = 0.
Proof.
  induction fuel as [|fuel IH]; intros i j I S B; simpl; [discriminate|].
  destruct (Z.ltb_spec i size) as [L|L]; [|discriminate].
  intros H. apply orb_true_iff in H. destruct H as [H|H].
  - apply Z.eqb_eq in H. subst j. rewrite Z.sub_diag. now apply Z.mod_0_l; lia.
  - rewrite Int32Facts.add_no_overflow in H
      by (unfold Int32.in_range, Int32.half_modulus in *; lia).
    apply IH in H; try lia.
    replace (j - i) with (j - (i + stride) + 1 * stride) by lia.
    now rewrite Z.mod_add by lia.
Qed.

(** The cells of one thread of a launch without overflow. *)
Lemma device_touched (l : launch) (t : thread) (size : Z) (fuel : nat) (j : Z) :
  1 <= blockDim_x l -> 1 <= gridDim_x l ->
  blockDim_x l * gridDim_x l + Z.max 0 size <= Int32.half_modulus ->
  In t (threads l) ->
  touched fuel (idx (Device l t)) (stride (Device l t)) size j = true ->
  idx (Device l t) <= j < size
  /\ (j - idx (Device l t)) mod (blockDim_x l * gridDim_x l) = 0.
Proof.
  intros HB HG Fit I H.
  destruct (device_idx l t) as [_ Ri]; [lia|exact I|].
  destruct (Z.le_gt_cases size (idx (Device l t))) as [L|L].
  - now rewrite touched_none in H.
  - assert (S : stride (Device l t) = blockDim_x l * gridDim_x l)
      by (apply device_stride; nia).
    rewrite S in H. repeat split.
    + apply touched_from_start in H; lia || nia.
    + now apply touched_below_size in H.
    + apply touched_stride_class in H; lia || nia.
Qed.

Lemma thread_of_idx (l : launch) (t1 t2 : thread) :
  1 <= blockDim_x l ->
  blockDim_x l * gridDim_x l <= Int32.half_modulus ->
  In t1 (threads l) -> In t2 (threads l) ->
  idx (Device l t1) = idx (Device l t2) -> t1 = t2.
Proof.
  intros HB Fit I1 I2 E.
  destruct (device_idx l t1 Fit I1) as [E1 _].
  destruct (device_idx l t2 Fit I2) as [E2 _].
  rewrite E1, E2 in E.
  apply in_threads in I1. apply in_threads in I2.
  destruct t1 as [b1 x1], t2 as [b2 x2]; simpl in *.
  assert (b1 = b2) by nia. subst b2.
  assert (x1 = x2) by lia. now subst x2.
Qed.

(** The number of iterations of the loop from [i]: the ceiling of
    [(size - i) / stride], none when [i] is not below [size]. *)
Lemma finishes_count (stride size : Z) (fuel : nat) : forall (i : Z),
  0 <= i -> 1 <= stride -> size + stride <= Int32.half_modulus ->
  finishes fuel i stride size
  = Nat.ltb (Z.to_nat (if i <? size then (size - i + stride - 1) / stride else 0)) fuel.
Proof.
  induction fuel as [|fuel IH]; intros i I S B.
  - simpl. symmetry. apply Nat.ltb_ge. lia.
  - simpl finishes. destruct (Z.ltb_spec i size) as [L|L].
    + rewrite Int32Facts.add_no_overflow
        by (unfold Int32.in_range, Int32.half_modulus in *; lia).
      rewrite IH by lia.
      assert (C : (size - i + stride - 1) / stride
                  = (if i + stride <? size
                     then (size - (i + stride) + stride - 1) / stride else 0) + 1).
      { destruct (Z.ltb_spec (i + stride) size) as [L'|L'].
        - replace (size - i + stride - 1)
            with (size - (i + stride) + stride - 1 + 1 * stride) by lia.
          now rewrite Z.div_add by lia.
        - symmetry. apply (Z.div_unique _ _ 1 (size - i - 1)); lia. }
      rewrite C.
      assert (P : 0 <= (if i + stride <? size
                        then (size - (i + stride) + stride - 1) / stride else 0)).
      { destruct (i + stride <? size); [apply Z.div_pos; lia|lia]. }
      rewrite Z2Nat.inj_add by lia.
      change (Z.to_nat 1) with 1%nat. rewrite Nat.add_1_r. reflexivity.
    + reflexivity.
Qed.

(** The cells of a whole launch without overflow: every thread leaves its
    loop and the stores cover exactly the offsets [0, size). *)
Lemma launch_cells (l : launch) (size : Z) (fuel : nat) :
  1 <= blockDim_x l -> 1 <= gridDim_x l ->
  blockDim_x l * gridDim_x l + Z.max 0 size <= Int32.half_modulus ->
  (Z.to_nat size < fuel)%nat ->
  run_finishes fuel (map (Device l) (threads l)) size = true
  /\ forall j, run_touched fuel (map (Device l) (threads l)) size j
               = (0 <=? j) && (j <? size).
Proof.
  intros HB HG Fit F.
  set (tgs := map (Device l) (threads l)).
  assert (Each : forall tg, In tg tgs -> exists t, tg = Device l t /\ In t (threads l)).
  { intros tg I. apply in_map_iff in I. destruct I as [t [E I]]. now exists t. }
  assert (Fin : run_finishes fuel tgs size = true).
  { apply run_finishes_all. intros tg I. destruct (Each tg I) as [t [-> It]].
    now apply device_thread. }
  split; [exact Fin|]. intros j.
  rewrite run_touched_exists by exact Fin.
  destruct (Z.leb_spec 0 j) as [P|P]; destruct (Z.ltb_spec j size) as [L|L]; simpl.
  - apply existsb_exists.
    set (n := blockDim_x l * gridDim_x l).
    assert (Pn : 0 < n) by (subst n; nia).
    set (t := Thread ((j mod n) / blockDim_x l) ((j mod n) mod blockDim_x l)).
    assert (It : In t (threads l)).
    { apply in_threads. subst t. simpl.
      pose proof (Z.mod_pos_bound j n Pn).
      pose proof (Z.mod_pos_bound (j mod n) (blockDim_x l)).
      split; [|lia]. split; [apply Z.div_pos; lia|].
      apply Z.div_lt_upper_bound; [lia|]. subst n. lia. }
    destruct (device_idx l t) as [Ei _]; [lia|exact It|].
    assert (Ei' : idx (Device l t) = j mod n).
    { rewrite Ei. subst t. simpl. symmetry. apply Z.div_mod. lia. }
    destruct (device_thread l t size fuel HB HG Fit F It) as [_ [_ Cov]].
    exists (Device l t). split; [subst tgs; now apply in_map|].
    apply Cov.
    + rewrite Ei'. pose proof (Z.mod_le j n). lia.
    + rewrite Ei'. fold n. rewrite Zminus_mod_idemp_r, Z.sub_diag.
      now apply Z.mod_0_l; lia.
  - apply not_true_is_false. intros H. apply existsb_exists in H.
    destruct H as [tg [_ H]]. apply touched_below_size in H. lia.
  - apply not_true_is_false. intros H. apply existsb_exists in H.
    destruct H as [tg [I H]]. destruct (Each tg I) as [t [-> It]].
    destruct (device_thread l t size fuel HB HG Fit F It) as [_ [Only _]].
    apply Only in H. lia.
  - apply not_true_is_false. intros H. apply existsb_exists in H.
    destruct H as [tg [_ H]]. apply touched_below_size in H. lia.
Qed.

(** *** Composition *)

(** X2.  The threads of a run that finishes can be taken in any order: the
    reordered run finishes too and reaches the same memory. *)
Theorem initArray_thread_order (T : Type) (fuel : nat) (tgs tgs' : list target)
        (data : mem T) (size : Z) (val : T) :
  Permutation tgs tgs' ->
  is_done (run fuel tgs data size val) = true ->
  is_done (run fuel tgs' data size val) = true
  /\ forall j, outcome_mem (run fuel tgs data size val) j
               = outcome_mem (run fuel tgs' data size val) j.
Proof.
  intros P D. rewrite run_done in D. split.
  - rewrite run_done. now rewrite <- (run_finishes_perm fuel size tgs tgs' P).
  - intros j. now apply run_order_irrelevant.
Qed.

Lemma initArray_thread_order_witness :
  is_done (run 5 [Device (Launch 2 1) (Thread 0 1); Device (Launch 2 1) (Thread 0 0)]
               (fun j => j) 3 7) = true
  /\ forall j,
       outcome_mem (run 5 [Device (Launch 2 1) (Thread 0 0); Device (Launch 2 1) (Thread 0 1)]
                        (fun j => j) 3 7) j
       = outcome_mem (run 5 [Device (Launch 2 1) (Thread 0 1); Device (Launch 2 1) (Thread 0 0)]
                          (fun j => j) 3 7) j.
Proof.
  apply (initArray_thread_order Z 5
           [Device (Launch 2 1) (Thread 0 0); Device (Launch 2 1) (Thread 0 1)]
           [Device (Launch 2 1) (Thread 0 1); Device (Launch 2 1) (Thread 0 0)]
           (fun j => j) 3 7).
  - apply perm_swap.
  - reflexivity.
Defined.

(** X3.  Filling again overwrites: running the same executions a second
    time with a value [v2] reaches the memory that a single run with [v2]
    reaches; with [v2 = v1] the second run changes nothing. *)
Theorem initArray_refill (T : Type) (fuel : nat) (tgs : list target)
        (data : mem T) (size : Z) (v1 v2 : T) (j : Z) :
  outcome_mem (run fuel tgs (outcome_mem (run fuel tgs data size v1)) size v2) j
  = outcome_mem (run fuel tgs data size v2) j.
Proof.
  rewrite !run_mem. now destruct (run_touched fuel tgs size j).
Qed.

(** X8.  A fill of [size1] elements with [v1] followed by a fill of
    [size2 <= size1] elements with [v2], each by a launch without overflow
    (the two launches may differ), leaves [v2] in [0, size2), [v1] in
    [size2, size1) and everything else as it was. *)
Theorem initArray_prefix_refill (T : Type) (l1 l2 : launch) (data : mem T)
        (size1 size2 : Z) (v1 v2 : T) (fuel : nat) :
  1 <= blockDim_x l1 -> 1 <= gridDim_x l1 ->
  1 <= blockDim_x l2 -> 1 <= gridDim_x l2 ->
  blockDim_x l1 * gridDim_x l1 + Z.max 0 size1 <= Int32.half_modulus ->
  blockDim_x l2 * gridDim_x l2 + Z.max 0 size2 <= Int32.half_modulus ->
  size2 <= size1 -> (Z.to_nat size1 < fuel)%nat ->
  exists m1 m2 : mem T,
    initArray_launch fuel l1 data size1 v1 = Done m1
    /\ initArray_launch fuel l2 m1 size2 v2 = Done m2
    /\ forall j, m2 j = if (0 <=? j) && (j <? size2) then v2
                        else if (0 <=? j) && (j <? size1) then v1
                        else data j.
Proof.
  intros B1 G1 B2 G2 F1 F2 Le F. unfold initArray_launch.
  destruct (launch_cells l1 size1 fuel B1 G1 F1 F) as [Fin1 W1].
  destruct (launch_cells l2 size2 fuel B2 G2 F2) as [Fin2 W2]; [lia|].
  pose proof (run_done size1 v1 fuel (map (Device l1) (threads l1)) data) as D1.
  pose proof (run_mem size1 v1 fuel (map (Device l1) (threads l1)) data) as M1.
  rewrite Fin1 in D1.
  destruct (run fuel (map (Device l1) (threads l1)) data size1 v1) as [m1|m1];
    [|discriminate D1].
  exists m1.
  pose proof (run_done size2 v2 fuel (map (Device l2) (threads l2)) m1) as D2.
  pose proof (run_mem size2 v2 fuel (map (Device l2) (threads l2)) m1) as M2.
  rewrite Fin2 in D2.
  destruct (run fuel (map (Device l2) (threads l2)) m1 size2 v2) as [m2|m2];
    [|discriminate D2].
  exists m2. split; [reflexivity|]. split; [reflexivity|].
  intros j. simpl in M1, M2. rewrite M2, W2, M1, W1. reflexivity.
Qed.

Lemma initArray_prefix_refill_witness :
  exists m1 m2 : mem Z,
    initArray_launch 6 (Launch 2 2) (fun _ => 0) 5 1 = Done m1
    /\ initArray_launch 6 (Launch 3 1) m1 2 2 = Done m2
    /\ forall j, m2 j = if (0 <=? j) && (j <? 2) then 2
                        else if (0 <=? j) && (j <? 5) then 1
                        else 0.
Proof.
  apply (initArray_prefix_refill Z (Launch 2 2) (Launch 3 1) (fun _ => 0) 5 2 1 2 6);
    simpl; unfold Int32.half_modulus; lia.
Defined.

(** *** The work of one thread *)

(** X4.  In a launch without overflow, thread [(b, t)] leaves its loop and
    has stored [val] exactly at the offsets [blockDim * b + t + k * stride]
    below [size], with [stride = blockDim * gridDim]; every other cell is as
    before. *)
Theorem initArray_thread_cells (T : Type) (l : launch) (t : thread) (data : mem T)
        (size : Z) (val : T) (fuel : nat) :
  1 <= blockDim_x l -> 1 <= gridDim_x l ->
  blockDim_x l * gridDim_x l + Z.max 0 size <= Int32.half_modulus ->
  (Z.to_nat size < fuel)%nat ->
  In t (threads l) ->
  is_done (initArray fuel (Device l t) data size val) = true
  /\ forall j,
       outcome_mem (initArray fuel (Device l t) data size val) j
       = if (blockDim_x l * blockIdx_x t + threadIdx_x t <=? j) && (j <? size)
            && ((j - (blockDim_x l * blockIdx_x t + threadIdx_x t))
                  mod (blockDim_x l * gridDim_x l) =? 0)
         then val else data j.
Proof.
  intros HB HG Fit F I.
  destruct (device_thread l t size fuel HB HG Fit F I) as [Fin [_ Cov]].
  destruct (device_idx l t) as [Ei _]; [lia|exact I|].
  unfold initArray. split; [now rewrite loop_done|].
  intros j. rewrite loop_mem. rewrite <- Ei.
  destruct (touched fuel (idx (Device l t)) (stride (Device l t)) size j) eqn:W.
  - destruct (device_touched l t size fuel j HB HG Fit I W) as [[A B] C].
    destruct (Z.leb_spec (idx (Device l t)) j); [|lia].
    destruct (Z.ltb_spec j size); [|lia].
    rewrite C. reflexivity.
  - destruct (Z.leb_spec (idx (Device l t)) j) as [A|A]; [|reflexivity].
    destruct (Z.ltb_spec j size) as [B|B]; [|reflexivity].
    destruct (Z.eqb_spec ((j - idx (Device l t)) mod (blockDim_x l * gridDim_x l)) 0)
      as [C|C]; [|reflexivity].
    rewrite Cov in W by (lia || exact C). discriminate W.
Qed.

Lemma initArray_thread_cells_witness :
  is_done (initArray 10 (Device (Launch 2 2) (Thread 1 0)) (fun _ => 0) 9 7) = true
  /\ forall j,
       outcome_mem (initArray 10 (Device (Launch 2 2) (Thread 1 0)) (fun _ => 0) 9 7) j
       = if (2 * 1 + 0 <=? j) && (j <? 9) && ((j - (2 * 1 + 0)) mod (2 * 2) =? 0)
         then 7 else 0.
Proof.
  apply (initArray_thread_cells Z (Launch 2 2) (Thread 1 0) (fun _ => 0) 9 7 10).
  - simpl. lia.
  - simpl. lia.
  - simpl. unfold Int32.half_modulus. lia.
  - simpl. lia.
  - apply in_threads. simpl. lia.
Defined.

(** X7.  In a launch without overflow, thread [(b, t)] with start index
    [i = blockDim * b + t] makes exactly [ceil ((size - i) / stride)]
    iterations when [i < size] and none otherwise: it has left its loop
    within [fuel] guard evaluations exactly when [fuel] exceeds that
    number. *)
Theorem initArray_iterations (T : Type) (l : launch) (t : thread) (data : mem T)
        (size : Z) (val : T) (fuel : nat) :
  1 <= blockDim_x l -> 1 <= gridDim_x l ->
  blockDim_x l * gridDim_x l + Z.max 0 size <= Int32.half_modulus ->
  In t (threads l) ->
  is_done (initArray fuel (Device l t) data size val)
  = Nat.ltb
      (Z.to_nat
         (if blockDim_x l * blockIdx_x t + threadIdx_x t <? size
          then (size - (blockDim_x l * blockIdx_x t + threadIdx_x t)
                + blockDim_x l * gridDim_x l - 1) / (blockDim_x l * gridDim_x l)
          else 0))
      fuel.
Proof.
  intros HB HG Fit I.
  destruct (device_idx l t) as [Ei Ri]; [lia|exact I|].
  unfold initArray. rewrite loop_done. rewrite <- Ei.
  destruct (Z.ltb_spec (idx (Device l t)) size) as [L|L].
  - assert (S : stride (Device l t) = blockDim_x l * gridDim_x l)
      by (apply device_stride; nia).
    rewrite S. rewrite finishes_count by (lia || nia).
    destruct (Z.ltb_spec (idx (Device l t)) size); [reflexivity|lia].
  - destruct fuel as [|fuel]; [reflexivity|].
    now rewrite finishes_at_once.
Qed.

Lemma initArray_iterations_witness :
  is_done (initArray 3 (Device (Launch 2 2) (Thread 1 0)) (fun _ => 0) 9 7)
  = Nat.ltb (Z.to_nat (if 2 * 1 + 0 <? 9 then (9 - (2 * 1 + 0) + 2 * 2 - 1) / (2 * 2) else 0)) 3.
Proof.
  apply (initArray_iterations Z (Launch 2 2) (Thread 1 0) (fun _ => 0) 9 7 3).
  - simpl. lia.
  - simpl. lia.
  - simpl. unfold Int32.half_modulus. lia.
  - apply in_threads. simpl. lia.
Defined.

(** *** The threads of a launch against each other *)

(** X5.  In a launch without overflow no cell is stored to by two different
    threads: the threads' store sets are pairwise disjoint. *)
Theorem initArray_threads_disjoint (l : launch) (t1 t2 : thread)
        (size : Z) (fuel : nat) (j : Z) :
  1 <= blockDim_x l -> 1 <= gridDim_x l ->
  blockDim_x l * gridDim_x l + Z.max 0 size <= Int32.half_modulus ->
  In t1 (threads l) -> In t2 (threads l) ->
  touched fuel (idx (Device l t1)) (stride (Device l t1)) size j = true ->
  touched fuel (idx (Device l t2)) (stride (Device l t2)) size j = true ->
  t1 = t2.
Proof.
  intros HB HG Fit I1 I2 W1 W2.
  destruct (device_touched l t1 size fuel j HB HG Fit I1 W1) as [[A1 B1] C1].
  destruct (device_touched l t2 size fuel j HB HG Fit I2 W2) as [[A2 B2] C2].
  destruct (device_idx l t1) as [_ R1]; [lia|exact I1|].
  destruct (device_idx l t2) as [_ R2]; [lia|exact I2|].
  apply (thread_of_idx l); try assumption; [lia|].
  set (n := blockDim_x l * gridDim_x l) in *.
  assert (E1 : idx (Device l t1) = j mod n).
  { apply Z.mod_divide in C1; [|lia]. destruct C1 as [q Q].
    apply (Z.mod_unique j n q); [lia|lia]. }
  assert (E2 : idx (Device l t2) = j mod n).
  { apply Z.mod_divide in C2; [|lia]. destruct C2 as [q Q].
    apply (Z.mod_unique j n q); [lia|lia]. }
  congruence.
Qed.

Lemma initArray_threads_disjoint_witness : Thread 1 0 = Thread 1 0.
Proof.
  apply (initArray_threads_disjoint (Launch 2 2) (Thread 1 0) (Thread 1 0) 9 6 6).
  - simpl. lia.
  - simpl. lia.
  - simpl. unfold Int32.half_modulus. lia.
  - apply in_threads. simpl. lia.
  - apply in_threads. simpl. lia.
  - reflexivity.
  - reflexivity.
Defined.

(** X6.  In a launch of at most 2^31 threads the start indices enumerate
    [0, blockDim * gridDim): every [k] of that range is the start index of
    exactly one thread. *)
Theorem initArray_idx_enumerates (l : launch) (k : Z) :
  1 <= blockDim_x l ->
  blockDim_x l * gridDim_x l <= Int32.half_modulus ->
  0 <= k < blockDim_x l * gridDim_x l ->
  exists t : thread,
    In t (threads l) /\ idx (Device l t) = k
    /\ forall t', In t' (threads l) -> idx (Device l t') = k -> t' = t.
Proof.
  intros HB Fit R.
  set (t := Thread (k / blockDim_x l) (k mod blockDim_x l)).
  assert (It : In t (threads l)).
  { apply in_threads. subst t. simpl.
    pose proof (Z.mod_pos_bound k (blockDim_x l)).
    split; [|lia]. split; [apply Z.div_pos; lia|].
    apply Z.div_lt_upper_bound; lia. }
  assert (Ek : idx (Device l t) = k).
  { destruct (device_idx l t Fit It) as [E _]. rewrite E. subst t. simpl.
    symmetry. apply Z.div_mod. lia. }
  exists t. split; [exact It|]. split; [exact Ek|].
  intros t' It' E'. apply (thread_of_idx l); try assumption. congruence.
Qed.

Lemma initArray_idx_enumerates_witness :
  exists t : thread,
    In t (threads (Launch 2 3)) /\ idx (Device (Launch 2 3) t) = 5
    /\ forall t', In t' (threads (Launch 2 3)) -> idx (Device (Launch 2 3) t') = 5 -> t' = t.
Proof.
  apply (initArray_idx_enumerates (Launch 2 3) 5).
  - simpl. lia.
  - simpl. unfold Int32.half_modulus. lia.
  - simpl. lia.
Defined.

End InitArrayCoverage.

(** ** What [initArray] leaves alone (UtilKernels.hpp, lines 54-57) *)

Module InitArrayFrame.

Import InitArray InitArrayFacts InitArrayCoverage.

(** *** Overflow of [i += stride] *)

Lemma overflows_none (stride size : Z) (fuel : nat) (i : Z) :
  size <= i -> overflows fuel i stride size = false.
Proof.
  intros L. destruct fuel as [|fuel]; simpl; [reflexivity|].
  now destruct (Z.ltb_spec i size); [lia|].
Qed.

(** A loop that starts at a non-negative index and whose stride is
    non-negative with [size + stride <= 2^31] never overflows. *)
Lemma overflows_bounded (stride size : Z) (fuel : nat) : forall (i : Z),
  0 <= i -> 0 <= stride -> size + stride <= Int32.half_modulus ->
  overflows fuel i stride size = false.
Proof.
  induction fuel as [|fuel IH]; intros i I S B; simpl; [reflexivity|].
  destruct (Z.ltb_spec i size) as [L|L]; [|reflexivity].
  assert (D : Int32.add_defined i stride = true).
  { unfold Int32.add_defined, Int32.half_modulus in *.
    apply andb_true_iff. split; [apply Z.leb_le|apply Z.ltb_lt]; lia. }
  rewrite D. simpl.
  rewrite Int32Facts.add_no_overflow
    by (unfold Int32.in_range, Int32.half_modulus in *; lia).
  apply IH; lia.
Qed.

Lemma launch_no_overflow (l : launch) (size : Z) (fuel : nat) :
  1 <= blockDim_x l -> 1 <= gridDim_x l ->
  blockDim_x l * gridDim_x l + Z.max 0 size <= Int32.half_modulus ->
  run_overflows fuel (map (Device l) (threads l)) size = false.
Proof.
  intros HB HG Fit. unfold run_overflows.
  apply not_true_is_false. intros H. apply existsb_exists in H.
  destruct H as [tg [I H]]. apply in_map_iff in I. destruct I as [t [<- It]].
  destruct (device_idx l t) as [_ Ri]; [lia|exact It|].
  destruct (Z.le_gt_cases size (idx (Device l t))) as [L|L].
  - now rewrite overflows_none in H.
  - rewrite device_stride in H by nia.
    rewrite overflows_bounded in H; [discriminate H|lia|nia|lia].
Qed.

(** With [size = INT_MAX] and [stride = 2], a loop that starts at an even
    index [i >= 0] reaches [i = 2147483646] after [(2147483646 - i) / 2]
    iterations, and its next increment overflows. *)
Lemma overflows_even (n : nat) : forall (i : Z),
  0 <= i -> 2147483646 - i = 2 * Z.of_nat n ->
  overflows (S n) i 2 Int32.max_signed = true.
Proof.
  induction n as [|n IH]; intros i I E.
  - assert (i = 2147483646) by lia. subst i. reflexivity.
  - change (overflows (S (S n)) i 2 Int32.max_signed)
      with (if i <? Int32.max_signed
            then negb (Int32.add_defined i 2)
                 || overflows (S n) (Int32.add i 2) 2 Int32.max_signed
            else false).
    destruct (Z.ltb_spec i Int32.max_signed) as [L|L];
      [|unfold Int32.max_signed in L; lia].
    rewrite Int32Facts.add_no_overflow
      by (unfold Int32.in_range, Int32.half_modulus; lia).
    rewrite IH by lia. apply orb_true_r.
Qed.

(** *** The cells of a run *)

Lemma run_touched_some (fuel : nat) (size : Z) : forall (tgs : list target) (j : Z),
  run_touched fuel tgs size j = true ->
  exists tg, In tg tgs /\ touched fuel (idx tg) (stride tg) size j = true.
Proof.
  induction tgs as [|tg rest IH]; intros j; simpl; [discriminate|].
  intros H. apply orb_true_iff in H. destruct H as [H|H].
  - exists tg. split; [now left|exact H].
  - apply andb_true_iff in H. destruct H as [_ H].
    destruct (IH j H) as [tg' [I W]]. exists tg'. split; [now right|exact W].
Qed.

(** In a launch without overflow every store lands in [0, size). *)
Lemma launch_touched_range (l : launch) (size : Z) (fuel : nat) (j : Z) :
  1 <= blockDim_x l -> 1 <= gridDim_x l ->
  blockDim_x l * gridDim_x l + Z.max 0 size <= Int32.half_modulus ->
  run_touched fuel (map (Device l) (threads l)) size j = true ->
  0 <= j < size.
Proof.
  intros HB HG Fit H. apply run_touched_some in H.
  destruct H as [tg [I W]]. apply in_map_iff in I. destruct I as [t [<- It]].
  destruct (device_idx l t) as [_ Ri]; [lia|exact It|].
  destruct (device_touched l t size fuel j HB HG Fit It W) as [R _]. lia.
Qed.

(** *** The claim *)

(** C10 (amended).  For a launch of [gridDim >= 1] blocks of
    [blockDim >= 1] threads with [blockDim * gridDim + max 0 size <= 2^31],
    whatever is observed after [initArray] has every element at an index
    [j >= size] as it was; for [size <= 0] all of memory is as it was; and
    each cell holds [val] or its prior content, which of the two being
    fixed by the launch and [size] alone, not by the prior contents. *)
Theorem initArray_launch_frame (T : Type) (l : launch) (size : Z) (val : T)
        (fuel : nat) (data m : mem T) :
  1 <= blockDim_x l -> 1 <= gridDim_x l ->
  blockDim_x l * gridDim_x l + Z.max 0 size <= Int32.half_modulus ->
  may_observe fuel (map (Device l) (threads l)) data size val m ->
  (forall j, size <= j -> m j = data j)
  /\ (size <= 0 -> forall j, m j = data j)
  /\ (forall j, m j = if run_touched fuel (map (Device l) (threads l)) size j
                      then val else data j).
Proof.
  intros HB HG Fit [U|[_ M]].
  - now rewrite launch_no_overflow in U.
  - assert (M' : forall j, m j = if run_touched fuel (map (Device l) (threads l)) size j
                                 then val else data j)
      by (intros j; rewrite M; apply run_mem).
    assert (Out : forall j, ~ 0 <= j < size -> m j = data j).
    { intros j R. rewrite M'.
      destruct (run_touched fuel (map (Device l) (threads l)) size j) eqn:W;
        [|reflexivity].
      exfalso. apply R. now apply (launch_touched_range l size fuel j). }
    split; [intros j L; apply Out; lia|].
    split; [intros L j; apply Out; lia|exact M'].
Qed.

Lemma initArray_launch_frame_witness :
  (forall j, 3 <= j ->
     outcome_mem (initArray_launch 5 (Launch 2 1) (fun j => j) 3 7) j = j)
  /\ (3 <= 0 -> forall j,
        outcome_mem (initArray_launch 5 (Launch 2 1) (fun j => j) 3 7) j = j)
  /\ (forall j,
        outcome_mem (initArray_launch 5 (Launch 2 1) (fun j => j) 3 7) j
        = if run_touched 5 (map (Device (Launch 2 1)) (threads (Launch 2 1))) 3 j
          then 7 else j).
Proof.
  apply (initArray_launch_frame Z (Launch 2 1) 3 7 5 (fun j => j)
           (outcome_mem (initArray_launch 5 (Launch 2 1) (fun j => j) 3 7))).
  - simpl. lia.
  - simpl. lia.
  - simpl. unfold Int32.half_modulus. lia.
  - right. split; reflexivity.
Defined.

(** C10 as stated, for every launch, fails at the top of the [int] range.
    For [size = INT_MAX] and one block of two threads, thread 0 runs with
    [stride = 2]; after the store at [i = 2147483646] the increment
    overflows.  From there on the language guarantees nothing, so a memory
    in which the cell at offset 2147483648, which is not below [size], has
    become [val] is among those that may be observed. *)
Lemma initArray_frame_overflow :
  ~ (forall m : mem Z,
       may_observe (S (Z.to_nat 1073741823))
                   (map (Device (Launch 2 1)) (threads (Launch 2 1)))
                   (fun _ => 0) 2147483647 1 m ->
       forall j, 2147483647 <= j -> m j = 0).
Proof.
  intros H.
  assert (U : may_observe (S (Z.to_nat 1073741823))
                (map (Device (Launch 2 1)) (threads (Launch 2 1)))
                (fun _ => 0) 2147483647 1 (store (fun _ => 0) 2147483648 1)).
  { left. unfold run_overflows.
    change (threads (Launch 2 1)) with [Thread 0 0; Thread 0 1].
    cbn [map existsb].
    change (idx (Device (Launch 2 1) (Thread 0 0))) with 0.
    change (stride (Device (Launch 2 1) (Thread 0 0))) with 2.
    change 2147483647 with Int32.max_signed.
    rewrite overflows_even; [reflexivity|lia|].
    rewrite Z2Nat.id; lia. }
  specialize (H _ U 2147483648). rewrite store_same in H.
  assert (C : 2147483647 <= 2147483648) by lia.
  specialize (H C). discriminate H.
Qed.

End InitArrayFrame.
